(** * Lance file format adapter: [cpp/src/lance/arrow/file_lance.cc]

    A shallow embedding of the Arrow dataset adapter of the Lance columnar
    format ([lance::arrow::LanceFileFormat], [lance::arrow::FileWriteOptions],
    [lance::arrow::LanceFragmentScanOptions]) and the properties of it that
    the specification states.

    The adapter's methods return [::arrow::Result] / [::arrow::Status] and
    mutate one piece of state, the manifest pointer held by
    [LanceFileFormat::Impl].  They are embedded in a state-and-error monad
    whose state is that [Impl] together with a log of the I/O the method
    performed. *)

From stdpp Require Import gmap strings list.
From Stdlib Require Import ZArith Lia.

Set Default Proof Using "Type".

(** ** Arrow's [Status] and [Result] *)

Module arrow.

(** The status codes of [::arrow::Status] that the adapter and the layers
    below it produce. *)
Inductive StatusCode : Type :=
| Invalid
| IOError
| KeyError
| TypeError
| IndexError
| NotImplemented
| UnknownError.

(** [::arrow::Status]: [OK], or a code with a message. *)
Inductive Status : Type :=
| OK
| Error (code : StatusCode) (msg : string).

(** [::arrow::Status::Invalid(msg)]. *)
Definition Status_Invalid (msg : string) : Status := Error Invalid msg.

(** [::arrow::Result<T>]: a value or a non-OK status. *)
Inductive Result (A : Type) : Type :=
| Value (a : A)
| Raised (code : StatusCode) (msg : string).
Arguments Value {A} a.
Arguments Raised {A} code msg.

(** [::arrow::internal::ThreadPool].  [GetCpuThreadPool()] hands out the
    one pool of the process; [ThreadPool::Make] creates a pool of its
    own, told apart by the order of creation. *)
Inductive ThreadPool : Type :=
| CpuThreadPool
| MadePool (id : nat).

Definition GetCpuThreadPool : ThreadPool := CpuThreadPool.

End arrow.
Export arrow.

(** ** The layers below the adapter

    Arrow's dataset types and the engine's file parser are used by
    [file_lance.cc] but not defined there.  They are taken as an interface. *)

Class Host : Type := {
  (** [::arrow::dataset::FileSource] *)
  FileSource : Type;
  (** [::arrow::io::RandomAccessFile] *)
  RandomAccessFile : Type;
  (** [::arrow::io::OutputStream] *)
  OutputStream : Type;
  (** [::arrow::fs::FileLocator] *)
  FileLocator : Type;
  (** [::arrow::Schema] *)
  ArrowSchema : Type;
  (** [::arrow::dataset::ScanOptions] *)
  ScanOptions : Type;
  (** [::arrow::dataset::FileFragment] *)
  FileFragment : Type;
  (** [lance::format::Schema] *)
  Schema : Type;
  (** [lance::format::Manifest] *)
  Manifest : Type;
  (** [lance::io::exec::Project], the decode plan of one scan *)
  Project : Type;
  (** [FileSource::Open()] *)
  source_Open : FileSource -> Result RandomAccessFile;
  (** [FileFragment::source()] *)
  fragment_source : FileFragment -> FileSource;
  (** parsing the footer of an open file into its manifest *)
  Manifest_Load : RandomAccessFile -> Result Manifest;
  (** [Manifest::schema()] *)
  Manifest_schema : Manifest -> Schema;
  (** [Schema::ToArrow()] *)
  Schema_ToArrow : Schema -> ArrowSchema;
  (** [exec::Project::Make(schema, scan_options)] *)
  Project_Make : Schema -> ScanOptions -> Result Project;
}.

(** ** Interfaces of the host framework *)

(** [::arrow::dataset::FileFormat], as far as [Equals] needs it. *)
Class FileFormat (T : Type) : Type := {
  type_name : T -> string
}.

Module fso.
(** [::arrow::dataset::FragmentScanOptions]. *)
Class FragmentScanOptions (T : Type) : Type := {
  type_name : T -> string
}.
End fso.

(** A format of the host framework other than this one (Parquet, IPC, CSV,
    ...): all [Equals] can see of it is its name. *)
Record OtherFormat : Type := { other_name : string }.

#[export] Instance OtherFormat_FileFormat : FileFormat OtherFormat :=
  {| type_name := other_name |}.

(** Scan options of another format. *)
Record OtherScanOptions : Type := { other_fso_name : string }.

#[export] Instance OtherScanOptions_fso : fso.FragmentScanOptions OtherScanOptions :=
  {| fso.type_name := other_fso_name |}.

(** [const char kLanceFormatTypeName[] = "lance";] *)
Definition kLanceFormatTypeName : string := "lance".

(** ** Write options *)

(** [lance::arrow::FileWriteOptions]; [batch_size] is a machine integer in
    the header, any integer here. *)
Record FileWriteOptions : Type := { batch_size : Z }.

(** [FileWriteOptions::Validate] *)
Definition Validate (self : FileWriteOptions) : Status :=
  if (batch_size self <=? 1)%Z
  then Status_Invalid "Batch size must be greater than 1"
  else OK.

(** [LanceFragmentScanOptions]: no state that [type_name] reads. *)
Record LanceFragmentScanOptions : Type := { }.

(** [LanceFragmentScanOptions::type_name] *)
#[export] Instance LanceFragmentScanOptions_fso :
  fso.FragmentScanOptions LanceFragmentScanOptions :=
  {| fso.type_name := fun _ => kLanceFormatTypeName |}.

(** [IsLanceFragmentScanOptions]: [std::string == const char*] compares the
    characters. *)
Definition IsLanceFragmentScanOptions {T} `{fso.FragmentScanOptions T}
    (fso : T) : bool :=
  String.eqb (fso.type_name fso) kLanceFormatTypeName.

(** ** The format object and its state *)

Section Adapter.
Context {host : Host}.

(** [LanceFileFormat::Impl]: the manifest pointer, null until a file has
    been inspected. *)
Record Impl : Type := { manifest : option Manifest }.

(** [LanceFileFormat]: [impl_] is its only member. *)
Record LanceFileFormat : Type := { impl_ : Impl }.

(** [LanceFileFormat::LanceFileFormat()] and [LanceFileFormat::Make()]:
    [std::make_unique<Impl>()] leaves the pointer null. *)
Definition Make : LanceFileFormat := {| impl_ := {| manifest := None |} |}.

(** [LanceFileFormat::type_name] *)
#[export] Instance LanceFileFormat_FileFormat : FileFormat LanceFileFormat :=
  {| type_name := fun _ => kLanceFormatTypeName |}.

(** [LanceFileFormat::Equals]: [std::string == std::string]. *)
Definition Equals {T} `{FileFormat T} (self : LanceFileFormat) (other : T) : bool :=
  String.eqb (type_name self) (type_name other).

(** What a method does to the world outside the format object. *)
Inductive Event : Type :=
| EvSourceOpen (source : FileSource)
| EvManifestLoad (infile : RandomAccessFile)
| EvWrite (destination : OutputStream) (nbytes : nat).

(** The state a method runs in: the format object it is called on and the
    I/O done so far, oldest first. *)
Record State : Type := { this : LanceFileFormat; io : list Event }.

(** What a call of a method ends in: the [::arrow::Result] it returns, a
    value ([Return]) or a non-OK status ([Raise]); or a [Fault], the
    dereference of a null [shared_ptr], which C++ leaves undefined. *)
Inductive Outcome (A : Type) : Type :=
| Return (a : A)
| Raise (code : StatusCode) (msg : string)
| Fault.
#[global] Arguments Return {A} a.
#[global] Arguments Raise {A} code msg.
#[global] Arguments Fault {A}.

(** A method body: it ends in an outcome and leaves a state behind. *)
Definition M (A : Type) : Type := State -> Outcome A * State.

Definition ret {A} (a : A) : M A := fun st => (Return a, st).

(** [ARROW_ASSIGN_OR_RAISE] / [ARROW_RETURN_NOT_OK]: the first failure
    ends the method, with the state as it is at that point. *)
Definition bind {A B} (m : M A) (k : A -> M B) : M B :=
  fun st =>
    match m st with
    | (Return a, st') => k a st'
    | (Raise c msg, st') => (Raise c msg, st')
    | (Fault, st') => (Fault, st')
    end.

(** The result of a call into the layers below, taken as this method's. *)
Definition lift {A} (r : Result A) : M A :=
  fun st =>
    match r with
    | Value a => (Return a, st)
    | Raised c msg => (Raise c msg, st)
    end.

Definition emit (e : Event) : M unit :=
  fun st => (Return tt, {| this := this st; io := io st ++ [e] |}).

(** reading [impl_->manifest] *)
Definition get_manifest : M (option Manifest) :=
  fun st => (Return (manifest (impl_ (this st))), st).

(** [impl_->manifest = m] *)
Definition set_manifest (m : option Manifest) : M unit :=
  fun st =>
    (Return tt, {| this := {| impl_ := {| manifest := m |} |}; io := io st |}).

(** dereferencing a [shared_ptr] *)
Definition deref {A} (p : option A) : M A :=
  match p with
  | Some a => ret a
  | None => fun st => (Fault, st)
  end.

End Adapter.

Declare Scope method_scope.
Delimit Scope method_scope with method.
Notation "'let!' x ':=' e 'in' k" := (bind e (fun x => k))
  (at level 10, x name, e at level 100, k at level 200) : method_scope.
Notation "'run!' e 'in' k" := (bind e (fun _ => k))
  (at level 10, e at level 100, k at level 200) : method_scope.

(** ** The reader and the writer under the adapter *)

Section Engine.
Context {host : Host}.
Local Open Scope method_scope.

(** Modelled from the spec: [lance::io::FileReader], which [file_lance.cc]
    includes from [lance/io/reader.h] and does not define.  Section 3: the
    open file handle owns the byte source and the loaded manifest, one
    manifest per handle.  Section 4.4: opening wraps the byte source; the
    manifest is loaded if not already loaded. *)
Record FileReader : Type := {
  file_ : RandomAccessFile;
  manifest_ : option Manifest
}.

(** Modelled from the spec: the two constructors of [FileReader], without
    and with a manifest that is already at hand. *)
Definition FileReader_new (infile : RandomAccessFile)
    (manifest : option Manifest) : FileReader :=
  {| file_ := infile; manifest_ := manifest |}.

(** Modelled from the spec: [FileReader::Open()], section 4.4, "loads the
    Manifest if not already loaded"; a footer that does not parse is the
    loader's error.  The reader is returned as the call leaves it. *)
Definition FileReader_Open (reader : FileReader) : M FileReader :=
  match manifest_ reader with
  | Some _ => ret reader
  | None =>
      run! emit (EvManifestLoad (file_ reader)) in
      let! m := lift (Manifest_Load (file_ reader)) in
      ret {| file_ := file_ reader; manifest_ := Some m |}
  end.

(** Modelled from the spec: [FileReader::Make(infile, manifest)], a reader
    constructed around the given manifest and opened. *)
Definition FileReader_Make (infile : RandomAccessFile)
    (manifest : option Manifest) : M FileReader :=
  FileReader_Open (FileReader_new infile manifest).

(** Modelled from the spec: [lance::io::RecordBatchReader], included
    from [lance/io/record_batch_reader.h] and not defined here.
    Section 4.6 and section 9: the generator holds the reader, the scan
    options and the worker pool it was handed; section 4.5: its decode
    plan is built from the scan options and the manifest. *)
Record RecordBatchReader : Type := {
  reader_ : FileReader;
  options_ : ScanOptions;
  thread_pool_ : ThreadPool;
  project_ : option Project
}.

Definition RecordBatchReader_new (reader : FileReader) (options : ScanOptions)
    (pool : ThreadPool) : RecordBatchReader :=
  {| reader_ := reader; options_ := options; thread_pool_ := pool;
     project_ := None |}.

(** Modelled from the spec: [RecordBatchReader::Open()] builds the decode
    plan of section 4.5 from the reader's manifest and the scan options. *)
Definition RecordBatchReader_Open (r : RecordBatchReader) : M RecordBatchReader :=
  let! m := deref (manifest_ (reader_ r)) in
  let! p := lift (Project_Make (Manifest_schema m) (options_ r)) in
  ret {| reader_ := reader_ r; options_ := options_ r;
         thread_pool_ := thread_pool_ r; project_ := Some p |}.

(** [::arrow::RecordBatchGenerator]: a [std::function] wrapped around the
    batch reader that was moved into it. *)
Record RecordBatchGenerator : Type := { batch_reader : RecordBatchReader }.

(** Modelled from the spec: the states of [lance::io::FileWriter], section
    4.3: [Created -> Open -> (Writing)* -> Finalized]. *)
Inductive WriterState : Type :=
| Created
| Open
| Writing
| Finalized.

(** Modelled from the spec: [lance::io::FileWriter], included from
    [lance/io/writer.h] and not defined here.  Section 4.3: created on
    construction with schema, write options and destination sink; nothing
    is written before the first write. *)
Record FileWriter : Type := {
  schema_ : ArrowSchema;
  write_options_ : FileWriteOptions;
  destination_ : OutputStream;
  destination_locator_ : FileLocator;
  state_ : WriterState
}.

(** Modelled from the spec: [new io::FileWriter(schema, options,
    destination, destination_locator)]. *)
Definition FileWriter_new (schema : ArrowSchema) (options : FileWriteOptions)
    (destination : OutputStream) (locator : FileLocator) : FileWriter :=
  {| schema_ := schema; write_options_ := options;
     destination_ := destination; destination_locator_ := locator;
     state_ := Created |}.

End Engine.

(** ** The methods of [LanceFileFormat] *)

Section Methods.
Context {host : Host}.
Local Open Scope method_scope.

(** [source.Open()], logged. *)
Definition FileSource_Open (source : FileSource) : M RandomAccessFile :=
  run! emit (EvSourceOpen source) in
  lift (source_Open source).

(** [LanceFileFormat::IsSupported] *)
Definition IsSupported (source : FileSource) : M bool :=
  ret true.

(** [LanceFileFormat::Inspect] *)
Definition Inspect (source : FileSource) : M ArrowSchema :=
  let! cached := get_manifest in
  match cached with
  | Some m => ret (Schema_ToArrow (Manifest_schema m))
  | None =>
      let! infile := FileSource_Open source in
      let reader := FileReader_new infile None in
      let! reader := FileReader_Open reader in
      run! set_manifest (manifest_ reader) in
      let! cached := get_manifest in
      let! m := deref cached in
      ret (Schema_ToArrow (Manifest_schema m))
  end.

(** [LanceFileFormat::ScanBatchesAsync] *)
Definition ScanBatchesAsync (options : ScanOptions) (file : FileFragment)
    : M RecordBatchGenerator :=
  let! infile := FileSource_Open (fragment_source file) in
  let! cached := get_manifest in
  let! reader := FileReader_Make infile cached in
  let batch_reader := RecordBatchReader_new reader options GetCpuThreadPool in
  let! batch_reader := RecordBatchReader_Open batch_reader in
  ret {| batch_reader := batch_reader |}.

(** [LanceFileFormat::MakeWriter] *)
Definition MakeWriter (destination : OutputStream) (schema : ArrowSchema)
    (options : FileWriteOptions) (destination_locator : FileLocator)
    : M FileWriter :=
  ret (FileWriter_new schema options destination destination_locator).

End Methods.

(** ** States and results the properties speak of *)

Section Outcomes.
Context {host : Host}.

(** The manifest the format object of a state has cached. *)
Definition cached (st : State) : option Manifest := manifest (impl_ (this st)).

(** The state after a manifest has been cached and events logged. *)
Definition caching (m : Manifest) (events : list Event) (st : State) : State :=
  {| this := {| impl_ := {| manifest := Some m |} |}; io := io st ++ events |}.

(** The state after events have been logged. *)
Definition logging (events : list Event) (st : State) : State :=
  {| this := this st; io := io st ++ events |}.

(** The generator a scan returns: reader over [infile] with manifest [m],
    decode plan [p], the process-wide pool. *)
Definition generator_of (infile : RandomAccessFile) (m : Manifest)
    (options : ScanOptions) (p : Project) : RecordBatchGenerator :=
  {| batch_reader :=
       {| reader_ := {| file_ := infile; manifest_ := Some m |};
          options_ := options;
          thread_pool_ := GetCpuThreadPool;
          project_ := Some p |} |}.

End Outcomes.

(** ** The record batch generator *)

Section Generator.
Context {Row : Type}.

(** A batch: the rows of one contiguous range of the file, with the file
    position of the first row of the range. *)
Record Batch : Type := { first_row : nat; rows : list Row }.

(** Modelled from the spec: the work units of a scan, section 4.6.  The
    file's rows are cut, in file order, into ranges of the scan's batch
    size; the last range may be smaller. *)
Fixpoint row_ranges (fuel batch_size offset : nat) (rest : list Row) : list Batch :=
  match fuel with
  | O => []
  | S fuel' =>
      match rest with
      | [] => []
      | _ :: _ =>
          {| first_row := offset; rows := take batch_size rest |}
          :: row_ranges fuel' batch_size (offset + batch_size) (drop batch_size rest)
      end
  end.

Definition work_units (batch_size : nat) (file_rows : list Row) : list Batch :=
  row_ranges (length file_rows) batch_size 0 file_rows.

(** Modelled from the spec: what a worker makes of one unit, section 4.5.
    The selection mask of the filter prunes the rows of the range; it is
    all-true when the scan has no filter. *)
Definition decode_unit (select : Row -> bool) (u : Batch) : Batch :=
  {| first_row := first_row u; rows := List.filter select (rows u) |}.

(** One unit of work handed to a pool. *)
Record Submission : Type := { to_pool : ThreadPool; unit_index : nat }.

(** Modelled from the spec: section 4.6, each unit is submitted to the
    worker pool the generator was handed. *)
Definition submit_all (pool : ThreadPool) (units : list Batch) : list Submission :=
  (fun i => {| to_pool := pool; unit_index := i |}) <$> seq 0 (length units).

(** Modelled from the spec: section 4.6, "out-of-order completions are
    buffered and released in sequence".  [next] is the unit the consumer
    is waiting for, [pending] the completed units that are ahead of it,
    [delivered] what the consumer has been given, oldest first. *)
Record Reorder : Type := {
  next : nat;
  pending : gmap nat Batch;
  delivered : list Batch
}.

Definition start : Reorder := {| next := 0; pending := ∅; delivered := [] |}.

(** Releases buffered units for as long as the awaited one is there. *)
Fixpoint release (fuel : nat) (s : Reorder) : Reorder :=
  match fuel with
  | O => s
  | S fuel' =>
      match pending s !! next s with
      | None => s
      | Some b =>
          release fuel'
            {| next := S (next s);
               pending := delete (next s) (pending s);
               delivered := delivered s ++ [b] |}
      end
  end.

(** A worker has finished unit [i]: its batch is buffered, and whatever
    is now in sequence is released.  No more units can be released than
    are buffered. *)
Definition complete (results : list Batch) (s : Reorder) (i : nat) : Reorder :=
  match results !! i with
  | None => s
  | Some b =>
      let held := <[i := b]> (pending s) in
      release (size held)
        {| next := next s; pending := held; delivered := delivered s |}
  end.

(** The buffer after the units have completed in the given order. *)
Definition deliver (results : list Batch) (completion_order : list nat) : Reorder :=
  foldl (complete results) start completion_order.

(** What the consumer of a scan has received once the workers have
    finished the units in [completion_order]. *)
Definition scan_output (select : Row -> bool) (batch_size : nat)
    (file_rows : list Row) (completion_order : list nat) : list Batch :=
  delivered (deliver (decode_unit select <$> work_units batch_size file_rows)
                     completion_order).

(** The buffer is in step with the set [done] of units completed so far:
    the consumer has the first [next] results, in order; every unit before
    [next] is done; and the buffer holds exactly the done units from
    [next] on, each with its own result. *)
Definition in_step (results : list Batch) (done : gset nat) (s : Reorder) : Prop :=
  delivered s = take (next s) results
  /\ next s <= length results
  /\ (forall j, j < next s -> j ∈ done)
  /\ (forall j b, pending s !! j = Some b <->
                  j ∈ done /\ next s <= j /\ results !! j = Some b).

End Generator.

(** The units of work the generator of a scan submits, and where to. *)
Definition generator_submissions {host : Host} {Row : Type}
    (g : RecordBatchGenerator) (units : list (@Batch Row)) : list Submission :=
  submit_all (thread_pool_ (batch_reader g)) units.

(** ** A small concrete host

    Two files on a disk, [a.lance] with columns [id], [name] and [b.lance]
    with column [x]; every other path fails to open.  Schemas are lists of
    column names, a manifest is the schema it carries, and a scan asks for
    a list of columns that must exist. *)

Module demo.

Definition open (path : string) : Result string :=
  if String.eqb path "a.lance" then Value "a.lance"
  else if String.eqb path "b.lance" then Value "b.lance"
  else Raised IOError "No such file".

Definition load (file : string) : Result (list string) :=
  if String.eqb file "a.lance" then Value ["id"; "name"]
  else if String.eqb file "b.lance" then Value ["x"]
  else Raised Invalid "Not a lance file".

Definition plan (schema columns : list string) : Result (list string) :=
  if forallb (fun c => existsb (String.eqb c) schema) columns
  then Value columns
  else Raised Invalid "Column not found".

Definition disk : Host := {|
  FileSource := string;
  RandomAccessFile := string;
  OutputStream := string;
  FileLocator := string;
  ArrowSchema := list string;
  ScanOptions := list string;
  FileFragment := string;
  Schema := list string;
  Manifest := list string;
  Project := list string;
  source_Open := open;
  fragment_source := fun f => f;
  Manifest_Load := load;
  Manifest_schema := fun m => m;
  Schema_ToArrow := fun s => s;
  Project_Make := plan
|}.

(** A freshly made format object and an empty log. *)
Definition fresh : @State disk := {| this := Make; io := [] |}.

(** The state after that format object has inspected [a.lance]. *)
Definition inspected : @State disk :=
  @caching disk ["id"; "name"]
    [@EvSourceOpen disk "a.lance"; @EvManifestLoad disk "a.lance"] fresh.

(** The generator of a scan of all columns of [a.lance]. *)
Definition scan_of_a : @RecordBatchGenerator disk :=
  @generator_of disk "a.lance" ["id"; "name"] ["id"] ["id"].

(** The generator of a scan of [b.lance]. *)
Definition scan_of_b : @RecordBatchGenerator disk :=
  @generator_of disk "b.lance" ["x"] ["x"] ["x"].

End demo.

(** ** Sequences of calls on one format object *)

Section Calls.
Context {host : Host}.

(** One call of a method of [LanceFileFormat], with its arguments. *)
Inductive Call : Type :=
| CallIsSupported (source : FileSource)
| CallInspect (source : FileSource)
| CallScanBatchesAsync (options : ScanOptions) (file : FileFragment)
| CallMakeWriter (destination : OutputStream) (schema : ArrowSchema)
    (options : FileWriteOptions) (locator : FileLocator).

Definition is_scan (c : Call) : bool :=
  match c with
  | CallScanBatchesAsync _ _ => true
  | _ => false
  end.

(** The state a call leaves behind, whatever it ends in. *)
Definition after (c : Call) (st : State) : State :=
  match c with
  | CallIsSupported source => snd (IsSupported source st)
  | CallInspect source => snd (Inspect source st)
  | CallScanBatchesAsync options file => snd (ScanBatchesAsync options file st)
  | CallMakeWriter destination schema options locator =>
      snd (MakeWriter destination schema options locator st)
  end.

(** The state after the calls have been made one after the other. *)
Definition after_all (cs : list Call) (st : State) : State :=
  foldl (fun st c => after c st) st cs.

(** The manifest of a source, if the source opens and its manifest loads. *)
Definition loadable (source : FileSource) : option Manifest :=
  match source_Open source with
  | Value infile =>
      match Manifest_Load infile with
      | Value m => Some m
      | Raised _ _ => None
      end
  | Raised _ _ => None
  end.

(** The manifest of the first source, among those the calls inspect, that
    opens and loads. *)
Fixpoint first_inspected (cs : list Call) : option Manifest :=
  match cs with
  | [] => None
  | CallInspect source :: cs' =>
      match loadable source with
      | Some m => Some m
      | None => first_inspected cs'
      end
  | _ :: cs' => first_inspected cs'
  end.

End Calls.

(** * Properties *)

(** ** Write options and the writer *)

Lemma Validate_cases (o : FileWriteOptions) :
  ((batch_size o <= 1)%Z /\
   Validate o = Error Invalid "Batch size must be greater than 1")
  \/ ((1 < batch_size o)%Z /\ Validate o = OK).
Proof.
  unfold Validate, Status_Invalid.
  destruct (Z.leb_spec (batch_size o) 1); [left | right]; split; trivial.
Qed.

(** C2. [FileWriteOptions::Validate] returns an [Invalid] status exactly
    when [batch_size <= 1], and [OK] exactly when [batch_size >= 2]; in
    particular a batch size of 2 is accepted. *)
Theorem Validate_fails_iff_batch_size_le_1 (o : FileWriteOptions) :
  ((exists msg, Validate o = Error Invalid msg) <-> (batch_size o <= 1)%Z)
  /\ (Validate o = OK <-> (2 <= batch_size o)%Z)
  /\ Validate {| batch_size := 2 |} = OK.
Proof.
  split; [| split]; [| | reflexivity].
  - split.
    + intros [msg E]. destruct (Validate_cases o) as [[Hle _] | [_ Hok]];
        [exact Hle | congruence].
    + intros Hle. destruct (Validate_cases o) as [[_ E] | [Hgt _]];
        [eauto | lia].
  - split.
    + intros E. destruct (Validate_cases o) as [[_ E'] | [Hgt _]];
        [congruence | lia].
    + intros Hge. destruct (Validate_cases o) as [[Hle _] | [_ E]];
        [lia | exact E].
Qed.

Section WriterProperties.
Context {host : Host}.

(** C1, as the code has it.  [MakeWriter] does not look at the write
    options: for every destination, schema, options and locator (a batch
    size of 1 or less included) it returns a writer in its [Created] state
    that holds exactly these arguments, and leaves the format object and
    the I/O log as they were, so nothing has been written.  The check of
    [batch_size] exists only as [FileWriteOptions::Validate], which the
    caller has to run: it is what fails, with [Invalid], on such options. *)
Theorem MakeWriter_never_validates (destination : OutputStream)
    (schema : ArrowSchema) (options : FileWriteOptions)
    (locator : FileLocator) (st : State) :
  MakeWriter destination schema options locator st
  = (Return {| schema_ := schema; write_options_ := options;
              destination_ := destination; destination_locator_ := locator;
              state_ := Created |}, st)
  /\ ((batch_size options <= 1)%Z <-> exists msg, Validate options = Error Invalid msg).
Proof.
  split; [reflexivity |].
  destruct (Validate_cases options) as [[Hle E] | [Hgt E]]; rewrite E.
  - split; eauto.
  - split; [lia | intros [msg ?]; discriminate].
Qed.

End WriterProperties.

(** C1, as stated, fails: on the demo disk, with a batch size of 1,
    [MakeWriter] does not end in an [Invalid] status. *)
Lemma MakeWriter_accepts_batch_size_1 :
  ~ (forall (destination : @OutputStream demo.disk) (schema : @ArrowSchema demo.disk)
            (options : FileWriteOptions) (locator : @FileLocator demo.disk)
            (st : @State demo.disk),
        (batch_size options <= 1)%Z ->
        exists msg,
          fst (MakeWriter destination schema options locator st) = Raise Invalid msg).
Proof.
  intros claim.
  destruct (claim "out.lance" ["id"] {| batch_size := 1 |} "out.lance" demo.fresh) as [msg E].
  - simpl. lia.
  - discriminate E.
Qed.

(** ** Identity of the format *)

Section IdentityProperties.
Context {host : Host}.

(** C5. [a.Equals(b)] is [true] exactly when the two type names are the
    same string, for a format [b] of any kind; the manifest cached in [a]
    plays no part: any other instance [a'] of this format gives the same
    answer against any [b'] named like [b]. *)
Theorem Equals_iff_type_name {T} `{FileFormat T} (a : LanceFileFormat) (b : T) :
  (Equals a b = true <-> type_name a = type_name b)
  /\ (forall (a' : LanceFileFormat) (b' : T),
        type_name b' = type_name b -> Equals a' b' = Equals a b).
Proof.
  unfold Equals. split.
  - apply String.eqb_eq.
  - intros a' b' E. simpl. now rewrite E.
Qed.

End IdentityProperties.

(** C6. Both [type_name] methods return the constant ["lance"], whatever
    the object holds, and [IsLanceFragmentScanOptions] is [true] exactly
    for scan options whose type name is that constant. *)
Theorem type_name_is_lance :
  kLanceFormatTypeName = "lance"
  /\ (forall (host : Host) (f : LanceFileFormat), type_name f = kLanceFormatTypeName)
  /\ (forall o : LanceFragmentScanOptions, fso.type_name o = kLanceFormatTypeName)
  /\ (forall (T : Type) (I : fso.FragmentScanOptions T) (o : T),
        IsLanceFragmentScanOptions o = true <-> fso.type_name o = kLanceFormatTypeName).
Proof.
  repeat split; try reflexivity.
  - apply String.eqb_eq.
  - apply String.eqb_eq.
Qed.

(** ** The manifest cache *)

(** Unfolds a method down to the operations of the state it runs in. *)
Ltac run_method :=
  unfold Inspect, ScanBatchesAsync, MakeWriter, IsSupported, FileSource_Open,
    FileReader_Make, FileReader_Open, FileReader_new,
    RecordBatchReader_Open, RecordBatchReader_new,
    deref, get_manifest, set_manifest, emit, lift, bind, ret;
  simpl.

(** Splits on the next result a method branches on. *)
Ltac next_outcome :=
  match goal with
  | |- context [match ?r with Value _ => _ | Raised _ _ => _ end] =>
      destruct r eqn:?; simpl
  | |- context [match ?o with Some _ => _ | None => _ end] =>
      destruct o eqn:?; simpl
  end.

Section CacheProperties.
Context {host : Host}.

Lemma Inspect_hit (source : FileSource) (st : State) (m : Manifest) :
  cached st = Some m ->
  Inspect source st = (Return (Schema_ToArrow (Manifest_schema m)), st).
Proof. unfold cached. intros E. run_method. now rewrite E. Qed.

Lemma Inspect_miss (source : FileSource) (st : State) :
  cached st = None ->
  Inspect source st =
  match source_Open source with
  | Value infile =>
      match Manifest_Load infile with
      | Value m =>
          (Return (Schema_ToArrow (Manifest_schema m)),
           caching m [EvSourceOpen source; EvManifestLoad infile] st)
      | Raised c msg =>
          (Raise c msg, logging [EvSourceOpen source; EvManifestLoad infile] st)
      end
  | Raised c msg => (Raise c msg, logging [EvSourceOpen source] st)
  end.
Proof.
  unfold cached, caching, logging. intros E. run_method. rewrite E.
  repeat next_outcome; rewrite <- ?app_assoc; reflexivity.
Qed.

(** A successful [Inspect] leaves a manifest in the cache, and it is the
    one whose schema was returned. *)
Lemma Inspect_success_cached (source : FileSource) (st st1 : State)
    (sch : ArrowSchema) :
  Inspect source st = (Return sch, st1) ->
  exists m, cached st1 = Some m /\ sch = Schema_ToArrow (Manifest_schema m).
Proof.
  destruct (cached st) as [m |] eqn:E.
  - rewrite (Inspect_hit _ _ _ E). intros [= <- <-]. eauto.
  - rewrite (Inspect_miss _ _ E).
    destruct (source_Open source) as [infile |]; [| discriminate].
    destruct (Manifest_Load infile) as [m |]; [| discriminate].
    intros [= <- <-]. exists m. split; reflexivity.
Qed.

(** With an empty cache, [Inspect] succeeds exactly on a source that opens
    and whose manifest loads. *)
Lemma Inspect_first_succeeds_iff (source : FileSource) (st : State) :
  cached st = None ->
  (exists sch st1, Inspect source st = (Return sch, st1))
  <-> (exists infile m,
         source_Open source = Value infile /\ Manifest_Load infile = Value m).
Proof.
  intros E. rewrite (Inspect_miss _ _ E).
  destruct (source_Open source) as [infile |].
  - destruct (Manifest_Load infile) as [m |] eqn:Hload.
    + split; eauto.
    + split; [intros (? & ? & ?); discriminate |].
      intros (infile' & m & [= <-] & ?). congruence.
  - split; [intros (? & ? & ?); discriminate |].
    intros (? & ? & ? & _). discriminate.
Qed.

(** What a scan ends in once its fragment is open and its reader has the
    manifest [m]. *)
Lemma Scan_hit (options : ScanOptions) (file : FileFragment) (st : State)
    (m : Manifest) :
  cached st = Some m ->
  ScanBatchesAsync options file st =
  (match source_Open (fragment_source file) with
   | Value infile =>
       match Project_Make (Manifest_schema m) options with
       | Value p => Return (generator_of infile m options p)
       | Raised c msg => Raise c msg
       end
   | Raised c msg => Raise c msg
   end,
   logging [EvSourceOpen (fragment_source file)] st).
Proof.
  unfold cached, logging, generator_of. intros E. run_method.
  destruct (source_Open (fragment_source file)); simpl; try reflexivity.
  rewrite E. simpl.
  destruct (Project_Make (Manifest_schema m) options); reflexivity.
Qed.

Lemma Scan_miss (options : ScanOptions) (file : FileFragment) (st : State) :
  cached st = None ->
  ScanBatchesAsync options file st =
  match source_Open (fragment_source file) with
  | Value infile =>
      (match Manifest_Load infile with
       | Value m =>
           match Project_Make (Manifest_schema m) options with
           | Value p => Return (generator_of infile m options p)
           | Raised c msg => Raise c msg
           end
       | Raised c msg => Raise c msg
       end,
       logging [EvSourceOpen (fragment_source file); EvManifestLoad infile] st)
  | Raised c msg =>
      (Raise c msg, logging [EvSourceOpen (fragment_source file)] st)
  end.
Proof.
  unfold cached, logging, generator_of. intros E. run_method.
  destruct (source_Open (fragment_source file)) as [infile |]; simpl;
    try reflexivity.
  rewrite E. simpl.
  destruct (Manifest_Load infile) as [m |]; simpl; rewrite <- ?app_assoc;
    try reflexivity.
  destruct (Project_Make (Manifest_schema m) options); reflexivity.
Qed.

(** No method of the format object dereferences a null manifest pointer. *)
Lemma methods_never_fault (st : State) :
  (forall source, fst (Inspect source st) <> Fault)
  /\ (forall options file, fst (ScanBatchesAsync options file st) <> Fault).
Proof.
  split.
  - intros source. destruct (cached st) as [m |] eqn:E.
    + now rewrite (Inspect_hit _ _ _ E).
    + rewrite (Inspect_miss _ _ E).
      destruct (source_Open source) as [infile |]; [| discriminate].
      destruct (Manifest_Load infile); discriminate.
  - intros options file. destruct (cached st) as [m |] eqn:E.
    + rewrite (Scan_hit _ _ _ _ E). simpl.
      destruct (source_Open (fragment_source file)); [| discriminate].
      destruct (Project_Make (Manifest_schema m) options); discriminate.
    + rewrite (Scan_miss _ _ _ E).
      destruct (source_Open (fragment_source file)) as [infile |];
        [| discriminate].
      simpl. destruct (Manifest_Load infile) as [m |]; [| discriminate].
      destruct (Project_Make (Manifest_schema m) options); discriminate.
Qed.

End CacheProperties.

Section CacheTheorems.
Context {host : Host}.

(** C4. [IsSupported] answers [true] for every source and in every state:
    never an error, never a fault, and it neither opens the source nor
    touches the format object.  The check proper comes later: a source
    that does not open, or whose manifest does not load, is reported as
    supported all the same, and it is [Inspect] (on a format object with
    nothing cached) that raises the error. *)
Theorem IsSupported_always_true (source : FileSource) (st : State) :
  IsSupported source st = (Return true, st)
  /\ (cached st = None ->
      forall c msg, source_Open source = Raised c msg ->
        fst (Inspect source st) = Raise c msg)
  /\ (cached st = None ->
      forall infile c msg, source_Open source = Value infile ->
        Manifest_Load infile = Raised c msg ->
        fst (Inspect source st) = Raise c msg).
Proof.
  split; [reflexivity | split].
  - intros E c msg Hopen. now rewrite (Inspect_miss _ _ E), Hopen.
  - intros E infile c msg Hopen Hload.
    now rewrite (Inspect_miss _ _ E), Hopen, Hload.
Qed.

(** C3. On a format object with an empty cache, an [Inspect] of a source
    that opens and whose manifest loads opens it, loads the manifest once,
    caches it and returns its schema.  From then on every [Inspect], of
    whatever source, returns that same schema and changes nothing: no
    open, no load.  A [ScanBatchesAsync] that follows, of any fragment
    and with any options, opens its fragment and hands the cached
    manifest to the reader it makes: when the fragment opens and the
    decode plan builds, it returns the generator whose reader is over the
    opened file and holds that manifest, planned against its schema; it
    raises the status of the open or of the plan otherwise; and in every
    case the log gains the open of the fragment and no manifest load. *)
Theorem Inspect_memoized_and_scan_reuses (source : FileSource) (st : State)
    (infile : RandomAccessFile) (m : Manifest)
    (Hempty : cached st = None)
    (Hopen : source_Open source = Value infile)
    (Hload : Manifest_Load infile = Value m) :
  let sch := Schema_ToArrow (Manifest_schema m) in
  let st1 := caching m [EvSourceOpen source; EvManifestLoad infile] st in
  Inspect source st = (Return sch, st1)
  /\ cached st1 = Some m
  /\ (forall source', Inspect source' st1 = (Return sch, st1))
  /\ (forall options file,
        snd (ScanBatchesAsync options file st1)
        = logging [EvSourceOpen (fragment_source file)] st1
        /\ (forall gen,
              fst (ScanBatchesAsync options file st1) = Return gen ->
              manifest_ (reader_ (batch_reader gen)) = Some m)
        /\ (forall infile' p,
              source_Open (fragment_source file) = Value infile' ->
              Project_Make (Manifest_schema m) options = Value p ->
              ScanBatchesAsync options file st1
              = (Return (generator_of infile' m options p),
                 logging [EvSourceOpen (fragment_source file)] st1))
        /\ fst (ScanBatchesAsync options file st1)
           = match source_Open (fragment_source file) with
             | Value infile' =>
                 match Project_Make (Manifest_schema m) options with
                 | Value p => Return (generator_of infile' m options p)
                 | Raised c msg => Raise c msg
                 end
             | Raised c msg => Raise c msg
             end).
Proof.
  intros sch st1.
  assert (Hc : cached st1 = Some m) by reflexivity.
  split; [| split; [exact Hc | split]].
  - rewrite (Inspect_miss _ _ Hempty), Hopen, Hload. reflexivity.
  - intros source'. apply (Inspect_hit _ _ _ Hc).
  - intros options file. rewrite (Scan_hit _ _ _ _ Hc). simpl.
    split; [reflexivity | split; [| split; [| reflexivity]]].
    + intros gen.
      destruct (source_Open (fragment_source file)); [| discriminate].
      destruct (Project_Make (Manifest_schema m) options); [| discriminate].
      intros [= <-]. reflexivity.
    + intros infile' p -> ->. reflexivity.
Qed.

(** C9. Once a manifest is cached, [Inspect] returns its schema for every
    source and leaves the state, I/O log included, as it was: the source
    is not opened.  So after one successful [Inspect] an [Inspect] of any
    other source gives the schema of the first. *)
Theorem Inspect_ignores_source_once_cached :
  (forall (st : State) (m : Manifest) (source : FileSource),
      cached st = Some m ->
      Inspect source st = (Return (Schema_ToArrow (Manifest_schema m)), st))
  /\ (forall (st st1 : State) (source1 source2 : FileSource) (sch : ArrowSchema),
        Inspect source1 st = (Return sch, st1) ->
        Inspect source2 st1 = (Return sch, st1)).
Proof.
  split.
  - intros st m source Hc. apply (Inspect_hit _ _ _ Hc).
  - intros st st1 source1 source2 sch H1.
    destruct (Inspect_success_cached _ _ _ _ H1) as (m & Hc & ->).
    apply (Inspect_hit _ _ _ Hc).
Qed.

(** C10. [ScanBatchesAsync] leaves the format object as it found it,
    whatever the scan ends in: a cached manifest stays, an empty cache
    stays empty.  With an empty cache the reader is made without a
    manifest and loads the one of the fragment's file itself: when the
    fragment opens, the log gains the open and the reader's load, and a
    generator that is returned reads through a manifest loaded from that
    file. *)
Theorem ScanBatchesAsync_preserves_cache (options : ScanOptions)
    (file : FileFragment) (st : State) :
  this (snd (ScanBatchesAsync options file st)) = this st
  /\ cached (snd (ScanBatchesAsync options file st)) = cached st
  /\ (cached st = None ->
      forall infile, source_Open (fragment_source file) = Value infile ->
        snd (ScanBatchesAsync options file st)
        = logging [EvSourceOpen (fragment_source file); EvManifestLoad infile] st
        /\ (forall gen, fst (ScanBatchesAsync options file st) = Return gen ->
              exists m, Manifest_Load infile = Value m
                        /\ manifest_ (reader_ (batch_reader gen)) = Some m)
        /\ (forall m p, Manifest_Load infile = Value m ->
              Project_Make (Manifest_schema m) options = Value p ->
              fst (ScanBatchesAsync options file st)
              = Return (generator_of infile m options p))).
Proof.
  assert (Hthis : this (snd (ScanBatchesAsync options file st)) = this st).
  { destruct (cached st) as [m |] eqn:Hc.
    - rewrite (Scan_hit _ _ _ _ Hc). reflexivity.
    - rewrite (Scan_miss _ _ _ Hc).
      destruct (source_Open (fragment_source file)); reflexivity. }
  split; [exact Hthis | split].
  - unfold cached. now rewrite Hthis.
  - intros Hc infile Hopen. rewrite (Scan_miss _ _ _ Hc), Hopen. simpl.
    split; [reflexivity | split].
    + intros gen.
      destruct (Manifest_Load infile) as [m |]; [| discriminate].
      destruct (Project_Make (Manifest_schema m) options);
        [| discriminate].
      intros [= <-]. exists m. split; reflexivity.
    + intros m p -> ->. reflexivity.
Qed.

(** C8. The generator a scan returns runs on the pool that
    [GetCpuThreadPool()] hands out, the one pool of the process, and on no
    pool made for the occasion; every unit of work it submits goes there,
    each unit once; and any other scan, of any fragment, with any options,
    on any format object, runs on that same pool. *)
Theorem ScanBatchesAsync_uses_process_wide_pool (options : ScanOptions)
    (file : FileFragment) (st st' : State) (gen : RecordBatchGenerator)
    (Hscan : ScanBatchesAsync options file st = (Return gen, st')) :
  thread_pool_ (batch_reader gen) = GetCpuThreadPool
  /\ (forall id, thread_pool_ (batch_reader gen) <> MadePool id)
  /\ (forall (Row : Type) (units : list (@Batch Row)),
        generator_submissions gen units
        = (fun i => {| to_pool := GetCpuThreadPool; unit_index := i |})
            <$> seq 0 (length units))
  /\ (forall options2 file2 (st2 st2' : State) gen2,
        ScanBatchesAsync options2 file2 st2 = (Return gen2, st2') ->
        thread_pool_ (batch_reader gen2) = thread_pool_ (batch_reader gen)).
Proof.
  assert (Hpool : forall o f (s s' : State) g,
             ScanBatchesAsync o f s = (Return g, s') ->
             thread_pool_ (batch_reader g) = GetCpuThreadPool).
  { intros o f s s' g. destruct (cached s) as [m |] eqn:Hc.
    - rewrite (Scan_hit _ _ _ _ Hc).
      destruct (source_Open (fragment_source f)); [| discriminate].
      destruct (Project_Make (Manifest_schema m) o); [| discriminate].
      intros [= <- _]. reflexivity.
    - rewrite (Scan_miss _ _ _ Hc).
      destruct (source_Open (fragment_source f)) as [infile |];
        [| discriminate].
      destruct (Manifest_Load infile) as [m |]; [| discriminate].
      destruct (Project_Make (Manifest_schema m) o); [| discriminate].
      intros [= <- _]. reflexivity. }
  pose proof (Hpool _ _ _ _ _ Hscan) as E.
  split; [exact E | split; [| split]].
  - intros id. rewrite E. discriminate.
  - intros Row units. unfold generator_submissions, submit_all. now rewrite E.
  - intros options2 file2 st2 st2' gen2 H2. rewrite E. apply (Hpool _ _ _ _ _ H2).
Qed.

End CacheTheorems.

(** ** The record batch generator: order of delivery *)

Section GeneratorProperties.
Context {Row : Type}.
Implicit Types (results : list (@Batch Row)) (s : @Reorder Row) (done : gset nat).

(** The [i]-th work unit starts at row [i * batch_size] (counted from
    [offset]) and holds the rows of its range. *)
Lemma row_ranges_lookup (fuel batch_size offset : nat) (rest : list Row)
    (i : nat) (b : Batch) :
  row_ranges fuel batch_size offset rest !! i = Some b ->
  first_row b = offset + i * batch_size
  /\ rows b = take batch_size (drop (i * batch_size) rest).
Proof.
  revert offset rest i.
  induction fuel as [| fuel IH]; intros offset rest i; simpl; [done |].
  destruct rest as [| r rest]; [done |].
  destruct i as [| i]; simpl.
  - intros [= <-]. simpl. split; [lia | done].
  - intros Hi. apply IH in Hi as [Hfirst Hrows]. split; [lia |].
    rewrite Hrows, drop_drop. reflexivity.
Qed.

(** Cutting loses no row and reorders none. *)
Lemma row_ranges_concat (fuel batch_size offset : nat) (rest : list Row) :
  0 < batch_size -> length rest <= fuel ->
  concat (rows <$> row_ranges fuel batch_size offset rest) = rest.
Proof.
  intros Hpos. revert offset rest.
  induction fuel as [| fuel IH]; intros offset rest Hlen; simpl.
  - destruct rest; [done | simpl in Hlen; lia].
  - destruct rest as [| r rest]; [done |].
    cbn [fmap list_fmap concat rows].
    rewrite IH.
    + apply take_drop.
    + rewrite length_drop. simpl in *. lia.
Qed.

Lemma release_in_step results done (fuel : nat) s :
  (forall j, j ∈ done -> j < length results) ->
  in_step results done s ->
  size (pending s) <= fuel ->
  in_step results done (release fuel s) /\ next (release fuel s) ∉ done.
Proof.
  intros Hrange. revert s.
  assert (Hstuck : forall s, in_step results done s ->
            pending s !! next s = None -> next s ∉ done).
  { intros s (_ & _ & _ & Hpend) Hnone Hin.
    destruct (lookup_lt_is_Some_2 results (next s) (Hrange _ Hin)) as [b Hb].
    assert (pending s !! next s = Some b) as E by (apply Hpend; auto).
    congruence. }
  induction fuel as [| fuel IH]; intros s Hs Hsize; simpl.
  - split; [done |]. apply Hstuck; [done |].
    assert (pending s = ∅) as -> by (apply map_size_empty_inv; lia).
    apply lookup_empty.
  - destruct (pending s !! next s) as [b |] eqn:E; [| split; auto].
    destruct Hs as (Hdel & Hle & Hbefore & Hpend).
    destruct (proj1 (Hpend _ _) E) as (Hin & _ & Hb).
    apply IH; unfold in_step; simpl.
    + split; [| split; [| split]].
      * rewrite Hdel. symmetry. by apply take_S_r.
      * by apply lookup_lt_Some in Hb.
      * intros j Hj. destruct (decide (j = next s)) as [-> |]; [done |].
        apply Hbefore. lia.
      * intros j b'. rewrite lookup_delete_Some, Hpend. split.
        -- intros (Hne & Hj & Hlt & Hres). repeat split; auto. lia.
        -- intros (Hj & Hlt & Hres). repeat split; auto; lia.
    + rewrite map_size_delete_Some by eauto. lia.
Qed.

Lemma complete_in_step results done s (i : nat) :
  (forall j, j ∈ done -> j < length results) ->
  i < length results -> i ∉ done ->
  in_step results done s ->
  in_step results ({[i]} ∪ done) (complete results s i)
  /\ next (complete results s i) ∉ {[i]} ∪ done.
Proof.
  intros Hrange Hi Hnew (Hdel & Hle & Hbefore & Hpend).
  unfold complete.
  destruct (lookup_lt_is_Some_2 results i Hi) as [b Hb]. rewrite Hb. simpl.
  apply release_in_step; [| | done].
  - intros j. rewrite elem_of_union, elem_of_singleton.
    intros [-> |]; auto.
  - unfold in_step; simpl. split; [done | split; [done | split]].
    + intros j Hj. apply elem_of_union_r. auto.
    + intros j b'.
      rewrite lookup_insert_Some, Hpend, elem_of_union, elem_of_singleton.
      split.
      * intros [[<- <-] | (Hne & Hj & Hlt & Hres)]; [| auto].
        repeat split; auto.
        destruct (decide (next s <= i)); [done |].
        exfalso. apply Hnew, Hbefore. lia.
      * intros ([-> | Hj] & Hlt & Hres).
        -- left. split; congruence.
        -- right. repeat split; auto. intros ->. done.
Qed.

Lemma foldl_complete_in_step results (order : list nat) :
  forall done s,
    NoDup order ->
    (forall i, i ∈ order -> i < length results /\ i ∉ done) ->
    (forall j, j ∈ done -> j < length results) ->
    in_step results done s -> next s ∉ done ->
    in_step results (list_to_set order ∪ done) (foldl (complete results) s order)
    /\ next (foldl (complete results) s order) ∉ list_to_set order ∪ done.
Proof.
  induction order as [| i order IH]; intros done s Hnodup Hnew Hrange Hs Hnext;
    simpl.
  - by rewrite (left_id_L ∅ (∪)).
  - apply NoDup_cons in Hnodup as [Hi Hnodup].
    destruct (Hnew i) as [Hlt Hfresh]; [by left |].
    destruct (complete_in_step results done s i Hrange Hlt Hfresh Hs)
      as [Hs' Hnext'].
    rewrite <- (assoc_L (∪)), (comm_L (∪) {[i]}), <- (assoc_L (∪)),
      (comm_L (∪) done).
    apply IH; [done | | | done | done].
    + intros k Hk. destruct (Hnew k) as [? ?]; [by right |].
      split; [done |]. rewrite elem_of_union, elem_of_singleton.
      intros [-> |]; done.
    + intros j. rewrite elem_of_union, elem_of_singleton.
      intros [-> |]; auto.
Qed.

Lemma start_in_step results :
  in_step results ∅ start /\ next (@start Row) ∉ (∅ : gset nat).
Proof.
  split; [| apply not_elem_of_empty].
  unfold in_step, start; simpl. split; [done | split; [lia | split]].
  - intros j Hj. lia.
  - intros j b. rewrite lookup_empty. split; [done |].
    intros [Hj _]. by apply not_elem_of_empty in Hj.
Qed.

(** The buffer after any run of distinct completions is in step with the
    set of units that have completed, and is not holding back the unit the
    consumer awaits. *)
Lemma deliver_in_step results (order : list nat) :
  NoDup order -> (forall i, i ∈ order -> i < length results) ->
  in_step results (list_to_set order) (deliver results order)
  /\ next (deliver results order) ∉ (list_to_set order : gset nat).
Proof.
  intros Hnodup Hrange.
  rewrite <- (right_id_L ∅ (∪) (list_to_set order)).
  destruct (start_in_step results) as [Hs Hnext].
  apply foldl_complete_in_step; [done | | | done | done].
  - intros i Hi. split; [auto | apply not_elem_of_empty].
  - intros j Hj. by apply not_elem_of_empty in Hj.
Qed.

(** While units are still out, what has been delivered is an initial part
    of the results in file order. *)
Lemma deliver_prefix results (order : list nat) :
  NoDup order -> (forall i, i ∈ order -> i < length results) ->
  delivered (deliver results order) `prefix_of` results.
Proof.
  intros Hnodup Hrange.
  destruct (deliver_in_step results order Hnodup Hrange) as [(Hdel & _) _].
  rewrite Hdel. apply prefix_take.
Qed.

(** Once every unit has completed, in whatever order, the consumer has
    all results, in file order. *)
Lemma deliver_all results (order : list nat) :
  Permutation order (seq 0 (length results)) ->
  delivered (deliver results order) = results.
Proof.
  intros Hperm.
  assert (Hnodup : NoDup order) by (rewrite Hperm; apply NoDup_seq).
  assert (Hin : forall i, i ∈ order <-> i < length results).
  { intros i. rewrite Hperm, elem_of_seq. lia. }
  destruct (deliver_in_step results order Hnodup) as [(Hdel & Hle & _) Hnext].
  { intros i. apply Hin. }
  rewrite Hdel. apply take_ge.
  destruct (decide (length results <= next (deliver results order)));
    [done | exfalso].
  apply Hnext, elem_of_list_to_set, Hin. lia.
Qed.

Lemma decoded_rows (select : Row -> bool) results :
  concat (rows <$> (decode_unit select <$> results))
  = List.filter select (concat (rows <$> results)).
Proof.
  induction results as [| b results IH]; simpl; [done |].
  rewrite List.filter_app. f_equal. exact IH.
Qed.

Lemma filter_all (select : Row -> bool) (l : list Row) :
  (forall r, select r = true) -> List.filter select l = l.
Proof.
  intros Hall. induction l as [| r l IH]; simpl; [done |].
  by rewrite Hall, IH.
Qed.

(** C7. A scan with a batch size of at least one row, whose units of work
    have all completed, in any order whatsoever: the consumer has received
    exactly the decoded units in file order, so the outcome does not
    depend on the order of completion.  The [i]-th batch delivered starts
    at file row [i * batch_size] and holds the selected rows of that
    range, so first rows never decrease along the output; the rows of all
    batches, concatenated, are the selected rows of the file in file
    order, and the whole file when nothing is filtered out.  At every
    earlier moment what has been delivered is an initial part of that
    output. *)
Theorem scan_output_in_file_order (select : Row -> bool) (batch_size : nat)
    (file_rows : list Row) (completion_order : list nat)
    (Hsize : 0 < batch_size)
    (Hdone : Permutation completion_order
               (seq 0 (length (work_units batch_size file_rows)))) :
  let out := scan_output select batch_size file_rows completion_order in
  out = decode_unit select <$> work_units batch_size file_rows
  /\ (forall i b, out !! i = Some b ->
        first_row b = i * batch_size
        /\ rows b = List.filter select
                      (take batch_size (drop (first_row b) file_rows)))
  /\ (forall i j bi bj, i <= j -> out !! i = Some bi -> out !! j = Some bj ->
        first_row bi <= first_row bj)
  /\ concat (rows <$> out) = List.filter select file_rows
  /\ ((forall r, select r = true) -> concat (rows <$> out) = file_rows)
  /\ (forall k,
        scan_output select batch_size file_rows (take k completion_order)
        `prefix_of` out).
Proof.
  intros out.
  set (results := decode_unit select <$> work_units batch_size file_rows).
  assert (Hlen : length results = length (work_units batch_size file_rows))
    by apply length_fmap.
  assert (Hout : out = results).
  { apply deliver_all. by rewrite Hlen. }
  assert (Hat : forall i b, results !! i = Some b ->
            first_row b = i * batch_size
            /\ rows b = List.filter select
                          (take batch_size (drop (first_row b) file_rows))).
  { intros i b. unfold results. rewrite list_lookup_fmap.
    destruct (work_units batch_size file_rows !! i) as [u |] eqn:Hu; [| done].
    intros [= <-]. apply row_ranges_lookup in Hu as [Hfirst Hrows].
    simpl in *. split; [lia |]. rewrite Hrows, Hfirst. done. }
  assert (Hrows : concat (rows <$> results) = List.filter select file_rows).
  { unfold results. rewrite decoded_rows. f_equal.
    by apply row_ranges_concat. }
  rewrite Hout. split; [done | split; [done | split; [| split; [| split]]]].
  - intros i j bi bj Hij Hi Hj.
    apply Hat in Hi as [-> _]. apply Hat in Hj as [-> _].
    by apply Nat.mul_le_mono_r.
  - done.
  - intros Hall. rewrite Hrows. by apply filter_all.
  - intros k. apply deliver_prefix.
    + assert (Hnodup : NoDup completion_order)
        by (rewrite Hdone; apply NoDup_seq).
      rewrite <- (take_drop k completion_order) in Hnodup.
      by apply NoDup_app in Hnodup as [? _].
    + intros i Hi.
      assert (Hin : i ∈ completion_order).
      { rewrite <- (take_drop k completion_order). apply elem_of_app. by left. }
      rewrite Hdone, elem_of_seq in Hin. lia.
Qed.

End GeneratorProperties.

(** ** The properties at work on the demo disk *)

Section OnDisk.
Import demo.
Local Existing Instance disk.

Example Validate_rejects_1 :
  Validate {| batch_size := 1 |} = Error Invalid "Batch size must be greater than 1".
Proof. reflexivity. Qed.

Example Validate_rejects_negative :
  Validate {| batch_size := -7 |} = Error Invalid "Batch size must be greater than 1".
Proof. reflexivity. Qed.

Example Validate_accepts_1024 : Validate {| batch_size := 1024 |} = OK.
Proof. reflexivity. Qed.

Example Equals_other_lance_instance :
  Equals Make {| impl_ := {| manifest := Some ["x"] |} |} = true.
Proof. reflexivity. Qed.

Example Equals_parquet : Equals Make {| other_name := "parquet" |} = false.
Proof. reflexivity. Qed.

Example IsLanceFragmentScanOptions_own :
  IsLanceFragmentScanOptions (Build_LanceFragmentScanOptions) = true.
Proof. reflexivity. Qed.

Example IsLanceFragmentScanOptions_csv :
  IsLanceFragmentScanOptions {| other_fso_name := "csv" |} = false.
Proof. reflexivity. Qed.

(** A path that does not open is still reported as supported; the failure
    shows at [Inspect]. *)
Example IsSupported_false_positive :
  IsSupported "missing.lance" fresh = (Return true, fresh)
  /\ fst (Inspect "missing.lance" fresh) = Raise IOError "No such file".
Proof. split; reflexivity. Qed.

(** A scan of [b.lance] through a format object that has inspected
    [a.lance] reads [b.lance] through the manifest of [a.lance]. *)
Example scan_after_inspect_of_other_file :
  fst (ScanBatchesAsync ["id"] "b.lance" inspected)
  = Return (generator_of "b.lance" ["id"; "name"] ["id"] ["id"]).
Proof. reflexivity. Qed.

Example work_units_5_rows_by_2 :
  work_units 2 [10; 11; 12; 13; 14]
  = [ {| first_row := 0; rows := [10; 11] |};
      {| first_row := 2; rows := [12; 13] |};
      {| first_row := 4; rows := [14] |} ].
Proof. reflexivity. Qed.

(** The last unit finishes first and is held back until its turn. *)
Example deliver_holds_back :
  let results := work_units 2 [10; 11; 12; 13; 14] in
  delivered (deliver results [2]) = []
  /\ delivered (deliver results [2; 0]) = take 1 results
  /\ delivered (deliver results [2; 0; 1]) = results.
Proof. vm_compute. repeat split. Qed.

End OnDisk.

(** ** Witnesses *)

Section Witnesses.
Local Existing Instance demo.disk.

(** C1 at a batch size of 1: the writer is returned, and [Validate] is what
    would have refused the options. *)
Lemma MakeWriter_never_validates_witness :
  MakeWriter (host := demo.disk) "out.lance" ["id"] {| batch_size := 1 |}
    "out.lance" demo.fresh
  = (Return (FileWriter_new (host := demo.disk) ["id"] {| batch_size := 1 |}
              "out.lance" "out.lance"), demo.fresh)
  /\ exists msg, Validate {| batch_size := 1 |} = Error Invalid msg.
Proof.
  destruct (MakeWriter_never_validates (host := demo.disk)
              "out.lance" ["id"] {| batch_size := 1 |} "out.lance" demo.fresh)
    as [Hmake Hvalidate].
  split; [exact Hmake |].
  apply Hvalidate. simpl. lia.
Defined.

(** C4 on the demo disk: a path that is not there is supported, and
    [Inspect] is where it fails. *)
Lemma IsSupported_always_true_witness :
  IsSupported (host := demo.disk) "missing.lance" demo.fresh
  = (Return true, demo.fresh)
  /\ fst (Inspect (host := demo.disk) "missing.lance" demo.fresh)
     = Raise IOError "No such file".
Proof.
  destruct (IsSupported_always_true (host := demo.disk) "missing.lance" demo.fresh)
    as (Htrue & Hopen & _).
  split; [exact Htrue |].
  apply Hopen; reflexivity.
Defined.

(** C3 on the demo disk: inspect [a.lance], inspect [b.lance], scan
    [a.lance], scan [b.lance].  Both scans return a generator whose reader
    holds the manifest of [a.lance], the one that is cached, and neither
    loads a manifest. *)
Lemma Inspect_memoized_and_scan_reuses_witness :
  let st1 := demo.inspected in
  Inspect (host := demo.disk) "a.lance" demo.fresh = (Return ["id"; "name"], st1)
  /\ Inspect (host := demo.disk) "b.lance" st1 = (Return ["id"; "name"], st1)
  /\ snd (ScanBatchesAsync (host := demo.disk) ["id"] "a.lance" st1)
     = logging [EvSourceOpen "a.lance"] st1
  /\ ScanBatchesAsync (host := demo.disk) ["id"] "a.lance" st1
     = (Return demo.scan_of_a, logging [EvSourceOpen "a.lance"] st1)
  /\ ScanBatchesAsync (host := demo.disk) ["id"] "b.lance" st1
     = (Return (generator_of "b.lance" ["id"; "name"] ["id"] ["id"]),
        logging [EvSourceOpen "b.lance"] st1).
Proof.
  destruct (Inspect_memoized_and_scan_reuses (host := demo.disk)
              "a.lance" demo.fresh "a.lance" ["id"; "name"]
              eq_refl eq_refl eq_refl)
    as (Hfirst & _ & Hnext & Hscan).
  split; [exact Hfirst | split; [apply Hnext | split; [apply Hscan | split]]].
  - destruct (Hscan ["id"] "a.lance") as (_ & _ & Hgen & _).
    apply (Hgen "a.lance" ["id"]); reflexivity.
  - destruct (Hscan ["id"] "b.lance") as (_ & _ & Hgen & _).
    apply (Hgen "b.lance" ["id"]); reflexivity.
Defined.

(** C9 on the demo disk: after [a.lance], an [Inspect] of [b.lance] and
    of a path that does not exist both answer with the schema of
    [a.lance]. *)
Lemma Inspect_ignores_source_once_cached_witness :
  exists st1,
    Inspect (host := demo.disk) "a.lance" demo.fresh = (Return ["id"; "name"], st1)
    /\ Inspect (host := demo.disk) "b.lance" st1 = (Return ["id"; "name"], st1)
    /\ Inspect (host := demo.disk) "missing.lance" st1 = (Return ["id"; "name"], st1).
Proof.
  destruct (Inspect_ignores_source_once_cached (host := demo.disk)) as [_ Hsecond].
  exists demo.inspected.
  split; [reflexivity | split].
  - apply (Hsecond demo.fresh _ "a.lance" "b.lance"). reflexivity.
  - apply (Hsecond demo.fresh _ "a.lance" "missing.lance"). reflexivity.
Defined.

(** C10 on the demo disk: a scan of [a.lance] by a fresh format object
    loads the manifest for its reader and leaves the cache empty. *)
Lemma ScanBatchesAsync_preserves_cache_witness :
  cached (snd (ScanBatchesAsync (host := demo.disk) ["id"] "a.lance" demo.fresh)) = None
  /\ ScanBatchesAsync (host := demo.disk) ["id"] "a.lance" demo.fresh
     = (Return demo.scan_of_a,
        logging [EvSourceOpen "a.lance"; EvManifestLoad "a.lance"] demo.fresh).
Proof.
  destruct (ScanBatchesAsync_preserves_cache (host := demo.disk)
              ["id"] "a.lance" demo.fresh)
    as (_ & Hcache & Hempty).
  split; [exact Hcache |].
  destruct (Hempty eq_refl "a.lance" eq_refl) as (Hlog & _ & Hgen).
  specialize (Hgen ["id"; "name"] ["id"] eq_refl eq_refl).
  change (ScanBatchesAsync ["id"] "a.lance" demo.fresh
          = (Return (generator_of "a.lance" ["id"; "name"] ["id"] ["id"]),
             logging [EvSourceOpen (fragment_source "a.lance");
                      EvManifestLoad "a.lance"] demo.fresh)).
  rewrite <- Hlog, <- Hgen. apply surjective_pairing.
Defined.

(** C8 on the demo disk: two scans, of different files through different
    format objects, on the same pool. *)
Lemma ScanBatchesAsync_uses_process_wide_pool_witness :
  let scan1 := ScanBatchesAsync (host := demo.disk) ["id"] "a.lance" demo.fresh in
  let scan2 := ScanBatchesAsync (host := demo.disk) ["x"] "b.lance" demo.fresh in
  exists gen1 gen2,
    fst scan1 = Return gen1 /\ fst scan2 = Return gen2
    /\ thread_pool_ (batch_reader gen1) = CpuThreadPool
    /\ thread_pool_ (batch_reader gen2) = thread_pool_ (batch_reader gen1).
Proof.
  intros scan1 scan2.
  exists demo.scan_of_a, demo.scan_of_b.
  split; [reflexivity | split; [reflexivity |]].
  destruct (ScanBatchesAsync_uses_process_wide_pool (host := demo.disk)
              ["id"] "a.lance" demo.fresh (snd scan1) demo.scan_of_a eq_refl)
    as (Hpool & _ & _ & Hother).
  split; [exact Hpool |].
  apply (Hother ["x"] "b.lance" demo.fresh (snd scan2)). reflexivity.
Defined.

(** C7 on five rows in batches of two, the last unit completing first. *)
Lemma scan_output_in_file_order_witness :
  0 < 2
  /\ Permutation [2; 0; 1] (seq 0 (length (work_units 2 [10; 11; 12; 13; 14])))
  /\ scan_output (fun _ => true) 2 [10; 11; 12; 13; 14] [2; 0; 1]
     = [ {| first_row := 0; rows := [10; 11] |};
         {| first_row := 2; rows := [12; 13] |};
         {| first_row := 4; rows := [14] |} ]
  /\ concat (rows <$> scan_output (fun _ => true) 2 [10; 11; 12; 13; 14] [2; 0; 1])
     = [10; 11; 12; 13; 14].
Proof.
  assert (Hsize : 0 < 2) by lia.
  assert (Hdone : Permutation [2; 0; 1]
                    (seq 0 (length (work_units 2 [10; 11; 12; 13; 14]))))
    by apply (Permutation_cons_append [0; 1] 2).
  destruct (scan_output_in_file_order (fun _ : nat => true) 2
              [10; 11; 12; 13; 14] [2; 0; 1] Hsize Hdone)
    as (Hout & _ & _ & _ & Hall & _).
  split; [exact Hsize | split; [exact Hdone | split]].
  - exact Hout.
  - apply Hall. reflexivity.
Defined.

End Witnesses.

(** * Further properties of the adapter *)

Section CallProperties.
Context {host : Host}.

Lemma Scan_this (options : ScanOptions) (file : FileFragment) (st : State) :
  this (snd (ScanBatchesAsync options file st)) = this st.
Proof.
  destruct (cached st) as [m |] eqn:Hc.
  - now rewrite (Scan_hit _ _ _ _ Hc).
  - rewrite (Scan_miss _ _ _ Hc).
    now destruct (source_Open (fragment_source file)).
Qed.

Lemma Inspect_miss_cached (source : FileSource) (st : State) :
  cached st = None -> cached (snd (Inspect source st)) = loadable source.
Proof.
  intros Hc. rewrite (Inspect_miss _ _ Hc). unfold loadable.
  destruct (source_Open source) as [infile |]; [| exact Hc].
  destruct (Manifest_Load infile); [reflexivity | exact Hc].
Qed.

Lemma after_cached_some (c : Call) (st : State) (m : Manifest) :
  cached st = Some m -> cached (after c st) = Some m.
Proof.
  intros Hc. destruct c; simpl; try exact Hc.
  - now rewrite (Inspect_hit _ _ _ Hc).
  - unfold cached. now rewrite Scan_this.
Qed.

Lemma after_cached_none (c : Call) (st : State) :
  cached st = None ->
  cached (after c st) =
  match c with
  | CallInspect source => loadable source
  | _ => None
  end.
Proof.
  intros Hc. destruct c; simpl; try exact Hc.
  - now apply Inspect_miss_cached.
  - unfold cached. now rewrite Scan_this.
Qed.

(** X1. [Inspect] raises exactly when nothing is cached and either the
    source does not open or the manifest of the opened file does not load,
    and what it raises is that very status; an [Inspect] that raises
    leaves the format object as it was, its cache still empty. *)
Theorem Inspect_raises_iff (source : FileSource) (st : State)
    (c : StatusCode) (msg : string) :
  (fst (Inspect source st) = Raise c msg
   <-> cached st = None
       /\ (source_Open source = Raised c msg
           \/ exists infile, source_Open source = Value infile
                             /\ Manifest_Load infile = Raised c msg))
  /\ (fst (Inspect source st) = Raise c msg ->
      this (snd (Inspect source st)) = this st
      /\ cached (snd (Inspect source st)) = None).
Proof.
  destruct (cached st) as [m |] eqn:Hc.
  - rewrite (Inspect_hit _ _ _ Hc). simpl.
    split; [split |]; [discriminate | intros [? _]; discriminate | discriminate].
  - rewrite (Inspect_miss _ _ Hc).
    destruct (source_Open source) as [infile |] eqn:Hopen.
    + destruct (Manifest_Load infile) as [m |] eqn:Hload; simpl.
      * split; [split |]; [discriminate | | discriminate].
        intros [_ [? | (infile' & [= <-] & ?)]]; congruence.
      * split; [split |].
        -- intros [= <- <-]. split; [reflexivity |]. right. eauto.
        -- intros [_ [? | (infile' & [= <-] & ?)]]; congruence.
        -- intros _. split; [reflexivity | exact Hc].
    + simpl. split; [split |].
      * intros [= <- <-]. auto.
      * intros [_ [? | (infile & ? & _)]]; congruence.
      * intros _. split; [reflexivity | exact Hc].
Qed.

Lemma after_this (c : Call) (st : State) (m : Manifest) :
  cached st = Some m -> this (after c st) = this st.
Proof.
  intros Hc. destruct c; simpl; try reflexivity.
  - now rewrite (Inspect_hit _ _ _ Hc).
  - apply Scan_this.
Qed.

Lemma after_all_this (cs : list Call) (st : State) (m : Manifest) :
  cached st = Some m -> this (after_all cs st) = this st.
Proof.
  unfold after_all. revert st.
  induction cs as [| c cs IH]; intros st Hc; simpl; [reflexivity |].
  rewrite IH by now apply after_cached_some.
  now apply (after_this c st m).
Qed.

(** X2. The cache is written once: a format object that has a manifest
    cached is left exactly as it is by every sequence of calls of
    [IsSupported], [Inspect], [ScanBatchesAsync] and [MakeWriter],
    whatever their arguments and whatever they end in; so at the end the
    same manifest is cached, and [Inspect] of any source answers with its
    schema. *)
Theorem cache_is_write_once (cs : list Call) (st : State) (m : Manifest)
    (Hcached : cached st = Some m) :
  this (after_all cs st) = this st
  /\ cached (after_all cs st) = Some m
  /\ (forall source,
        fst (Inspect source (after_all cs st))
        = Return (Schema_ToArrow (Manifest_schema m))).
Proof.
  pose proof (after_all_this cs st m Hcached) as Hthis.
  assert (Hc : cached (after_all cs st) = Some m)
    by (unfold cached; now rewrite Hthis).
  split; [exact Hthis | split; [exact Hc |]].
  intros source. now rewrite (Inspect_hit _ _ _ Hc).
Qed.

(** X3. Starting with nothing cached, after any sequence of calls the
    cache holds the manifest of the first source handed to [Inspect] that
    opens and whose manifest loads, and nothing if there is none: scans,
    failed inspections and later inspections have no say. *)
Theorem cache_holds_first_inspected (cs : list Call) (st : State)
    (Hempty : cached st = None) :
  cached (after_all cs st) = first_inspected cs.
Proof.
  revert st Hempty. unfold after_all.
  induction cs as [| c cs IH]; intros st Hc; simpl; [exact Hc |].
  pose proof (after_cached_none c st Hc) as Hafter.
  destruct c as [source | source | options file | d s o l];
    try (apply IH; exact Hafter).
  destruct (loadable source) as [m |] eqn:Hload.
  - change (cached (after_all cs (after (CallInspect source) st)) = Some m).
    unfold cached at 1. now rewrite (after_all_this cs _ m Hafter).
  - apply IH. exact Hafter.
Qed.

(** X4. Once a manifest is cached, calls other than scans do nothing at
    all: after any sequence of [IsSupported], [Inspect] and [MakeWriter]
    calls the state is the one before, so no source has been opened and no
    manifest loaded. *)
Theorem no_io_once_cached (cs : list Call) (st : State) (m : Manifest)
    (Hcached : cached st = Some m)
    (Hcalls : forallb (fun c => negb (is_scan c)) cs = true) :
  after_all cs st = st.
Proof.
  unfold after_all. induction cs as [| c cs IH]; simpl; [reflexivity |].
  simpl in Hcalls. apply andb_prop in Hcalls as [Hc Hcs].
  assert (Hstep : after c st = st).
  { destruct c; simpl; try reflexivity.
    - now rewrite (Inspect_hit _ _ _ Hcached).
    - discriminate Hc. }
  rewrite Hstep. now apply IH.
Qed.

(** X5. [ScanBatchesAsync] raises exactly the status of the first of
    these that fails: opening the fragment's source; loading the manifest
    of the opened file, which is attempted only when nothing is cached;
    building the decode plan against the schema of the manifest in use. *)
Theorem ScanBatchesAsync_raises_iff (options : ScanOptions)
    (file : FileFragment) (st : State) (c : StatusCode) (msg : string) :
  fst (ScanBatchesAsync options file st) = Raise c msg
  <-> source_Open (fragment_source file) = Raised c msg
      \/ (exists infile,
            source_Open (fragment_source file) = Value infile
            /\ cached st = None
            /\ Manifest_Load infile = Raised c msg)
      \/ (exists infile m,
            source_Open (fragment_source file) = Value infile
            /\ (cached st = Some m
                \/ (cached st = None /\ Manifest_Load infile = Value m))
            /\ Project_Make (Manifest_schema m) options = Raised c msg).
Proof.
  destruct (cached st) as [m |] eqn:Hc.
  - rewrite (Scan_hit _ _ _ _ Hc). simpl.
    destruct (source_Open (fragment_source file)) as [infile |] eqn:Hopen.
    + destruct (Project_Make (Manifest_schema m) options) as [p |] eqn:Hplan.
      * split; [discriminate |].
        intros [? | [(? & _ & ? & _) | (? & m' & _ & [[= <-] | [? _]] & ?)]];
          congruence.
      * split.
        -- intros [= <- <-]. right. right. exists infile, m. auto.
        -- intros [? | [(? & _ & ? & _) | (? & m' & _ & [[= <-] | [? _]] & ?)]];
             congruence.
    + split.
      * intros [= <- <-]. auto.
      * intros [? | [(? & ? & _) | (? & ? & ? & _)]]; congruence.
  - rewrite (Scan_miss _ _ _ Hc).
    destruct (source_Open (fragment_source file)) as [infile |] eqn:Hopen; simpl.
    + destruct (Manifest_Load infile) as [m |] eqn:Hload.
      * destruct (Project_Make (Manifest_schema m) options) as [p |] eqn:Hplan.
        -- split; [discriminate |].
           intros [? | [(? & [= <-] & _ & ?)
                       | (? & m' & [= <-] & [? | [_ ?]] & ?)]]; congruence.
        -- split.
           ++ intros [= <- <-]. right. right. exists infile, m. auto.
           ++ intros [? | [(? & [= <-] & _ & ?)
                          | (? & m' & [= <-] & [? | [_ ?]] & ?)]]; congruence.
      * split.
        -- intros [= <- <-]. right. left. exists infile. auto.
        -- intros [? | [(? & [= <-] & _ & ?)
                       | (? & m' & [= <-] & [? | [_ ?]] & ?)]]; congruence.
    + split.
      * intros [= <- <-]. auto.
      * intros [? | [(? & ? & _) | (? & ? & ? & _)]]; congruence.
Qed.

(** X6. Caching does not change what a scan returns as long as the file
    scanned still holds the manifest that is cached.  After a successful
    [Inspect], take a fragment whose source opens, at the time of the
    scan, to a file whose manifest is the one now in the cache; then the
    scan ends in the same result on the format object that has inspected
    as on the one that has not.  Without that condition the two can
    differ, the scan going through the cached manifest. *)
Theorem scan_same_after_inspect (source : FileSource) (st st1 : State)
    (sch : ArrowSchema) (options : ScanOptions) (file : FileFragment)
    (infile : RandomAccessFile)
    (Hinspect : Inspect source st = (Return sch, st1))
    (Hopen : source_Open (fragment_source file) = Value infile)
    (Hunchanged : forall m, cached st1 = Some m -> Manifest_Load infile = Value m) :
  fst (ScanBatchesAsync options file st1) = fst (ScanBatchesAsync options file st).
Proof.
  destruct (cached st) as [m0 |] eqn:Hc.
  - rewrite (Inspect_hit _ _ _ Hc) in Hinspect. now injection Hinspect as _ <-.
  - destruct (Inspect_success_cached _ _ _ _ Hinspect) as (m & Hc1 & _).
    rewrite (Scan_hit _ _ _ _ Hc1), (Scan_miss _ _ _ Hc), Hopen.
    now rewrite (Hunchanged m Hc1).
Qed.

(** X7. A scan reads its fragment through the cached manifest when there
    is one, and through the manifest of the fragment's own file only when
    there is none: with [m] cached, the decode plan is built against the
    schema of [m] and the reader carries [m], whatever manifest [m'] the
    fragment's file holds; without, both are those of [m']. *)
Theorem scan_reads_through_cached_manifest (options : ScanOptions)
    (file : FileFragment) (st st0 : State) (infile : RandomAccessFile)
    (m m' : Manifest)
    (Hcached : cached st = Some m)
    (Hempty : cached st0 = None)
    (Hopen : source_Open (fragment_source file) = Value infile)
    (Hload : Manifest_Load infile = Value m') :
  fst (ScanBatchesAsync options file st)
  = match Project_Make (Manifest_schema m) options with
    | Value p => Return (generator_of infile m options p)
    | Raised c msg => Raise c msg
    end
  /\ fst (ScanBatchesAsync options file st0)
     = match Project_Make (Manifest_schema m') options with
       | Value p => Return (generator_of infile m' options p)
       | Raised c msg => Raise c msg
       end.
Proof.
  rewrite (Scan_hit _ _ _ _ Hcached), (Scan_miss _ _ _ Hempty), Hopen, Hload.
  split; reflexivity.
Qed.

(** X10. The order of [Inspect] and [ScanBatchesAsync] decides how often
    the manifest is loaded.  On a format object with nothing cached and a
    file that opens, loads and can be planned: inspect then scan opens the
    file twice and loads its manifest once; scan then inspect opens it
    twice and loads the manifest twice, the scan having cached nothing. *)
Theorem scan_does_not_warm_cache (source : FileSource) (options : ScanOptions)
    (file : FileFragment) (st : State) (infile : RandomAccessFile)
    (m : Manifest) (p : Project)
    (Hempty : cached st = None)
    (Hsame : fragment_source file = source)
    (Hopen : source_Open source = Value infile)
    (Hload : Manifest_Load infile = Value m)
    (Hplan : Project_Make (Manifest_schema m) options = Value p) :
  io (snd (ScanBatchesAsync options file (snd (Inspect source st))))
  = io st ++ [EvSourceOpen source; EvManifestLoad infile; EvSourceOpen source]
  /\ io (snd (Inspect source (snd (ScanBatchesAsync options file st))))
     = io st ++ [EvSourceOpen source; EvManifestLoad infile;
                 EvSourceOpen source; EvManifestLoad infile]
  /\ fst (ScanBatchesAsync options file (snd (Inspect source st)))
     = fst (ScanBatchesAsync options file st).
Proof.
  assert (Hscan : ScanBatchesAsync options file st
                  = (Return (generator_of infile m options p),
                     logging [EvSourceOpen source; EvManifestLoad infile] st)).
  { now rewrite (Scan_miss _ _ _ Hempty), Hsame, Hopen, Hload, Hplan. }
  assert (Hinspect : Inspect source st
                     = (Return (Schema_ToArrow (Manifest_schema m)),
                        caching m [EvSourceOpen source; EvManifestLoad infile] st)).
  { now rewrite (Inspect_miss _ _ Hempty), Hopen, Hload. }
  rewrite Hscan, Hinspect. simpl.
  rewrite (Scan_hit _ _ _ m) by reflexivity.
  rewrite (Inspect_miss _ (logging _ st)) by exact Hempty.
  rewrite Hsame, Hopen, Hload, Hplan. simpl.
  rewrite <- !app_assoc. repeat split.
Qed.

End CallProperties.

(** ** The further properties on the demo disk *)

Section FurtherWitnesses.
Import demo.
Local Existing Instance disk.

(** X1: a path that is not there. *)
Lemma Inspect_raises_iff_witness :
  fst (Inspect (host := disk) "missing.lance" fresh) = Raise IOError "No such file"
  /\ cached (snd (Inspect (host := disk) "missing.lance" fresh)) = None.
Proof.
  destruct (Inspect_raises_iff (host := disk) "missing.lance" fresh
              IOError "No such file") as [Hiff Hatomic].
  assert (Hraise : fst (Inspect (host := disk) "missing.lance" fresh)
                   = Raise IOError "No such file").
  { apply Hiff. split; [reflexivity | left; reflexivity]. }
  split; [exact Hraise | apply Hatomic, Hraise].
Defined.

(** X2: after [a.lance] has been inspected, inspecting and scanning other
    files leaves its manifest in the cache. *)
Lemma cache_is_write_once_witness :
  cached (after_all [@CallInspect disk "b.lance";
                     @CallScanBatchesAsync disk ["x"] "b.lance";
                     @CallInspect disk "missing.lance"] inspected)
  = Some ["id"; "name"]
  /\ fst (Inspect (host := disk) "b.lance"
            (after_all [@CallInspect disk "b.lance";
                        @CallScanBatchesAsync disk ["x"] "b.lance";
                        @CallInspect disk "missing.lance"] inspected))
     = Return ["id"; "name"].
Proof.
  destruct (cache_is_write_once
              [@CallInspect disk "b.lance";
               @CallScanBatchesAsync disk ["x"] "b.lance";
               @CallInspect disk "missing.lance"] inspected ["id"; "name"] eq_refl)
    as (_ & Hcached & Hinspect).
  split; [exact Hcached | apply Hinspect].
Defined.

(** X3: a scan, a failed inspection, then [b.lance], then [a.lance]: the
    cache holds the manifest of [b.lance]. *)
Lemma cache_holds_first_inspected_witness :
  cached (after_all [@CallScanBatchesAsync disk ["id"] "a.lance";
                     @CallInspect disk "missing.lance";
                     @CallInspect disk "b.lance";
                     @CallInspect disk "a.lance"] fresh)
  = Some ["x"].
Proof.
  exact (cache_holds_first_inspected
           [@CallScanBatchesAsync disk ["id"] "a.lance";
            @CallInspect disk "missing.lance";
            @CallInspect disk "b.lance";
            @CallInspect disk "a.lance"] fresh eq_refl).
Defined.

(** X4: after [a.lance] has been inspected, inspections, recognitions and
    writers change nothing. *)
Lemma no_io_once_cached_witness :
  after_all [@CallInspect disk "b.lance";
             @CallIsSupported disk "missing.lance";
             @CallMakeWriter disk "out.lance" ["id"] {| batch_size := 1 |} "out.lance";
             @CallInspect disk "missing.lance"] inspected
  = inspected.
Proof.
  exact (no_io_once_cached
           [@CallInspect disk "b.lance";
            @CallIsSupported disk "missing.lance";
            @CallMakeWriter disk "out.lance" ["id"] {| batch_size := 1 |} "out.lance";
            @CallInspect disk "missing.lance"] inspected ["id"; "name"]
           eq_refl eq_refl).
Defined.

(** X5: a scan for a column [a.lance] does not have raises the planner's
    status. *)
Lemma ScanBatchesAsync_raises_iff_witness :
  fst (ScanBatchesAsync (host := disk) ["nope"] "a.lance" fresh)
  = Raise Invalid "Column not found".
Proof.
  apply (ScanBatchesAsync_raises_iff (host := disk) ["nope"] "a.lance" fresh).
  right. right. exists "a.lance", ["id"; "name"].
  split; [reflexivity | split; [right; split; reflexivity | reflexivity]].
Defined.

(** X6: scanning [a.lance] before and after inspecting it; the file
    scanned holds the manifest that was cached. *)
Lemma scan_same_after_inspect_witness :
  Inspect (host := disk) "a.lance" fresh = (Return ["id"; "name"], inspected)
  /\ Manifest_Load (Host := disk) "a.lance" = Value ["id"; "name"]
  /\ fst (ScanBatchesAsync (host := disk) ["id"] "a.lance" inspected)
     = fst (ScanBatchesAsync (host := disk) ["id"] "a.lance" fresh).
Proof.
  split; [reflexivity | split; [reflexivity |]].
  apply (scan_same_after_inspect (host := disk) "a.lance" fresh inspected
           ["id"; "name"] ["id"] "a.lance" "a.lance" eq_refl eq_refl).
  intros m [= <-]. reflexivity.
Defined.

(** X7: a scan of [b.lance] for column [id], which only [a.lance] has,
    succeeds on the format object that has inspected [a.lance] and fails
    on a fresh one. *)
Lemma scan_reads_through_cached_manifest_witness :
  fst (ScanBatchesAsync (host := disk) ["id"] "b.lance" inspected)
  = Return (generator_of "b.lance" ["id"; "name"] ["id"] ["id"])
  /\ fst (ScanBatchesAsync (host := disk) ["id"] "b.lance" fresh)
     = Raise Invalid "Column not found".
Proof.
  exact (scan_reads_through_cached_manifest (host := disk) ["id"] "b.lance"
           inspected fresh "b.lance" ["id"; "name"] ["x"]
           eq_refl eq_refl eq_refl eq_refl).
Defined.

(** X10: [a.lance], inspected then scanned, and scanned then inspected. *)
Lemma scan_does_not_warm_cache_witness :
  io (snd (ScanBatchesAsync (host := disk) ["id"] "a.lance"
             (snd (Inspect (host := disk) "a.lance" fresh))))
  = [EvSourceOpen "a.lance"; EvManifestLoad "a.lance"; EvSourceOpen "a.lance"]
  /\ io (snd (Inspect (host := disk) "a.lance"
                (snd (ScanBatchesAsync (host := disk) ["id"] "a.lance" fresh))))
     = [EvSourceOpen "a.lance"; EvManifestLoad "a.lance";
        EvSourceOpen "a.lance"; EvManifestLoad "a.lance"].
Proof.
  destruct (scan_does_not_warm_cache (host := disk) "a.lance" ["id"] "a.lance"
              fresh "a.lance" ["id"; "name"] ["id"]
              eq_refl eq_refl eq_refl eq_refl eq_refl)
    as (Hfirst & Hsecond & _).
  split; [exact Hfirst | exact Hsecond].
Defined.

End FurtherWitnesses.
